(** * The version-11 umbrella header of pgx-pg-sys

    [pgx-pg-sys/include/pg11.h] is the header that is handed to the binding
    generator for PostgreSQL 11.  It is a list of [#include] directives with
    two scoped [#define]/[#undef] pairs.  This development embeds the file
    line by line, gives the preprocessor directives their meaning (a macro
    table threaded through the lines) and checks the scoping properties of
    the two renames. *)

From stdpp Require Import base strings list gmap sets.

Set Default Proof Using "Type".

(** ** The source file, one constructor per physical line *)

Module Pg11.

(** A line of a C header, as far as the preprocessor is concerned.
    [Define sym body] is [#define sym body] with the replacement list
    split into preprocessing tokens; [Other] is any other directive or any
    line of C code. *)
Inductive line : Type :=
  | Comment (text : string)
  | Blank
  | Include (path : string)
  | Define (sym : string) (body : list string)
  | Undef (sym : string)
  | Other (text : string).

#[global] Instance line_eq_dec : EqDecision line.
Proof. solve_decision. Defined.

(** [pg11.h], lines 1 to 111. *)
Definition pg11_h : list line :=
  [
    (*   1 *) Comment "/*";
    (*   2 *) Comment "Portions Copyright 2019-2021 ZomboDB, LLC.";
    (*   3 *) Comment "Portions Copyright 2021-2022 Technology Concepts & Design, Inc. <support@tcdi.com>";
    (*   4 *) Comment "";
    (*   5 *) Comment "All rights reserved.";
    (*   6 *) Comment "";
    (*   7 *) Comment "Use of this source code is governed by the MIT license that can be found in the LICENSE file.";
    (*   8 *) Comment "*/";
    (*   9 *) Include "postgres.h";
    (*  10 *) Include "pg_config.h";
    (*  11 *) Include "funcapi.h";
    (*  12 *) Include "miscadmin.h";
    (*  13 *) Include "pgstat.h";
    (*  14 *) Blank;
    (*  15 *) Include "access/amapi.h";
    (*  16 *) Include "access/genam.h";
    (*  17 *) Include "access/gin.h";
    (*  18 *) Include "access/gist.h";
    (*  19 *) Include "access/heapam.h";
    (*  20 *) Include "access/htup.h";
    (*  21 *) Include "access/htup_details.h";
    (*  22 *) Include "access/reloptions.h";
    (*  23 *) Include "access/relscan.h";
    (*  24 *) Include "access/skey.h";
    (*  25 *) Include "access/sysattr.h";
    (*  26 *) Include "access/xact.h";
    (*  27 *) Include "catalog/dependency.h";
    (*  28 *) Include "catalog/index.h";
    (*  29 *) Include "catalog/namespace.h";
    (*  30 *) Include "catalog/objectaddress.h";
    (*  31 *) Include "catalog/pg_class.h";
    (*  32 *) Include "catalog/pg_enum.h";
    (*  33 *) Include "catalog/pg_operator.h";
    (*  34 *) Include "catalog/pg_proc.h";
    (*  35 *) Include "catalog/pg_trigger.h";
    (*  36 *) Include "catalog/pg_type.h";
    (*  37 *) Include "commands/comment.h";
    (*  38 *) Include "commands/dbcommands.h";
    (*  39 *) Include "commands/defrem.h";
    (*  40 *) Include "commands/event_trigger.h";
    (*  41 *) Include "commands/explain.h";
    (*  42 *) Include "commands/proclang.h";
    (*  43 *) Include "commands/tablecmds.h";
    (*  44 *) Include "commands/trigger.h";
    (*  45 *) Include "commands/vacuum.h";
    (*  46 *) Include "executor/executor.h";
    (*  47 *) Include "executor/spi.h";
    (*  48 *) Include "foreign/fdwapi.h";
    (*  49 *) Include "foreign/foreign.h";
    (*  50 *) Include "mb/pg_wchar.h";
    (*  51 *) Blank;
    (*  52 *) Define "ScanKey" ["struct"; "ScanKeyData"; "*"];
    (*  53 *) Include "nodes/execnodes.h";
    (*  54 *) Undef "ScanKey";
    (*  55 *) Blank;
    (*  56 *) Include "nodes/extensible.h";
    (*  57 *) Include "nodes/makefuncs.h";
    (*  58 *) Include "nodes/nodeFuncs.h";
    (*  59 *) Include "nodes/nodes.h";
    (*  60 *) Include "nodes/print.h";
    (*  61 *) Include "nodes/relation.h";
    (*  62 *) Include "nodes/replnodes.h";
    (*  63 *) Include "nodes/tidbitmap.h";
    (*  64 *) Include "nodes/value.h";
    (*  65 *) Include "optimizer/clauses.h";
    (*  66 *) Include "optimizer/cost.h";
    (*  67 *) Include "optimizer/pathnode.h";
    (*  68 *) Include "optimizer/paths.h";
    (*  69 *) Include "optimizer/planmain.h";
    (*  70 *) Include "optimizer/planner.h";
    (*  71 *) Include "optimizer/restrictinfo.h";
    (*  72 *) Include "optimizer/tlist.h";
    (*  73 *) Include "parser/parse_func.h";
    (*  74 *) Include "parser/parse_type.h";
    (*  75 *) Include "parser/parser.h";
    (*  76 *) Include "parser/parsetree.h";
    (*  77 *) Include "postmaster/bgworker.h";
    (*  78 *) Include "replication/output_plugin.h";
    (*  79 *) Include "rewrite/rewriteHandler.h";
    (*  80 *) Include "storage/block.h";
    (*  81 *) Include "storage/bufmgr.h";
    (*  82 *) Include "storage/buffile.h";
    (*  83 *) Include "storage/ipc.h";
    (*  84 *) Include "storage/itemptr.h";
    (*  85 *) Include "storage/lwlock.h";
    (*  86 *) Include "storage/procarray.h";
    (*  87 *) Include "tcop/tcopprot.h";
    (*  88 *) Include "tcop/utility.h";
    (*  89 *) Include "tsearch/ts_public.h";
    (*  90 *) Include "tsearch/ts_utils.h";
    (*  91 *) Include "utils/builtins.h";
    (*  92 *) Include "utils/date.h";
    (*  93 *) Include "utils/datetime.h";
    (*  94 *) Blank;
    (*  95 *) Define "double" ["float8"];
    (*  96 *) Include "utils/geo_decls.h";
    (*  97 *) Undef "double";
    (*  98 *) Blank;
    (*  99 *) Include "utils/guc.h";
    (* 100 *) Include "utils/json.h";
    (* 101 *) Include "utils/jsonb.h";
    (* 102 *) Include "utils/lsyscache.h";
    (* 103 *) Include "utils/memutils.h";
    (* 104 *) Include "utils/palloc.h";
    (* 105 *) Include "utils/rel.h";
    (* 106 *) Include "utils/relcache.h";
    (* 107 *) Include "utils/sampling.h";
    (* 108 *) Include "utils/selfuncs.h";
    (* 109 *) Include "utils/snapmgr.h";
    (* 110 *) Include "utils/syscache.h";
    (* 111 *) Include "utils/typcache.h"
  ].

(** Lines are numbered from 1, as an editor shows them. *)
Definition line_at (n : nat) : option line :=
  match n with
  | 0 => None
  | S i => pg11_h !! i
  end.

End Pg11.

(** ** What the directives do: the preprocessor's macro table *)

Module Cpp.
Import Pg11.

(** The macro table: each defined name with its replacement list. *)
Abbreviation macros := (gmap string (list string)).

(** One line read by the preprocessor.  [#define] enters the name,
    [#undef] removes it, every other line leaves the table alone. *)
Definition step (m : macros) (l : line) : macros :=
  match l with
  | Define s body => <[s := body]> m
  | Undef s => delete s m
  | _ => m
  end.

Definition run (m : macros) (ls : list line) : macros := foldl step m ls.

(** The table in effect when the line with index [i] (from 0) is read:
    the table left by the [i] lines before it. *)
Definition macros_before (ls : list line) (i : nat) : macros :=
  run ∅ (take i ls).

(** The renames active when line number [n] (from 1) of [pg11.h] is read,
    and those active at the end of the file. *)
Definition active_at_line (n : nat) : macros := macros_before pg11_h (n - 1).
Definition active_at_eof : macros := run ∅ pg11_h.

(** Every [#include] of the file, in order, with the table it is read under. *)
Fixpoint includes_env (m : macros) (ls : list line) : list (string * macros) :=
  match ls with
  | [] => []
  | l :: ls' =>
      match l with
      | Include p => (p, m) :: includes_env (step m l) ls'
      | _ => includes_env (step m l) ls'
      end
  end.

Definition includes (ls : list line) : list string :=
  (includes_env ∅ ls).*1.

(** Every line of the file with its line number, counted from [n], and the
    table it is read under. *)
Fixpoint trace (n : nat) (m : macros) (ls : list line) : list (nat * line * macros) :=
  match ls with
  | [] => []
  | l :: ls' => (n, l, m) :: trace (S n) (step m l) ls'
  end.

(** Macro replacement of one token.  The replacement list of a defined
    name is rescanned for further macros, with the name itself no longer
    available, so each level of rescanning removes one name from the table;
    [fuel] is the number of names still available. *)
Fixpoint expand_tok (fuel : nat) (m : macros) (t : string) : list string :=
  match fuel with
  | 0 => [t]
  | S f =>
      match m !! t with
      | None => [t]
      | Some body => body ≫= expand_tok f (delete t m)
      end
  end.

(** Macro replacement of a token sequence under the table [m]. *)
Definition expand (m : macros) (toks : list string) : list string :=
  toks ≫= expand_tok (size m) m.


End Cpp.


(** ** Rename directives as scoped records *)

Module Shim.
Import Pg11 Cpp.

(** Results that either succeed or name an error. *)
Inductive result (E A : Type) : Type :=
  | Ok (a : A)
  | Err (e : E).
Arguments Ok {E A} a.
Arguments Err {E A} e.

(** Modelled from the spec: a rename directive, the tuple of the renamed
    symbol, its temporary alias, the scope start and the scope end (the line
    numbers of the [#define] and of the [#undef]), with the includes read in
    between. *)
Record rename : Type := Rename {
  r_sym : string;
  r_alias : list string;
  r_open : nat;
  r_close : nat;
  r_includes : list string
}.

#[global] Instance rename_eq_dec : EqDecision rename.
Proof. solve_decision. Defined.

(** Modelled from the spec: what makes a ShimScopeError, a rename that is
    unterminated or overlaps another; an [#undef] that closes nothing is
    reported as well. *)
Inductive scope_error : Type :=
  | Unterminated (sym : string)
  | Overlap (line_no : nat)
  | StrayUndef (line_no : nat).

Definition add_include (c : rename) (p : string) : rename :=
  Rename (r_sym c) (r_alias c) (r_open c) (r_close c) (r_includes c ++ [p]).

Definition close_at (c : rename) (n : nat) : rename :=
  Rename (r_sym c) (r_alias c) (r_open c) n (r_includes c).

(** The static check of the scopes.  It reads the lines from line number
    [n] on, with [cur] the scope that is open at that point, and collects the
    scopes of the file.  A [#define] inside an open scope, an [#undef] that
    does not close the open scope and a scope still open at the end of the
    file are errors. *)
Fixpoint scopes_from (n : nat) (cur : option rename) (ls : list line)
  : result scope_error (list rename) :=
  match ls with
  | [] =>
      match cur with
      | None => Ok []
      | Some c => Err (Unterminated (r_sym c))
      end
  | l :: ls' =>
      match l, cur with
      | Define s b, None => scopes_from (S n) (Some (Rename s b n n [])) ls'
      | Define _ _, Some _ => Err (Overlap n)
      | Undef s, Some c =>
          if decide (s = r_sym c) then
            match scopes_from (S n) None ls' with
            | Ok rs => Ok (close_at c n :: rs)
            | Err e => Err e
            end
          else Err (StrayUndef n)
      | Undef _, None => Err (StrayUndef n)
      | Include p, Some c => scopes_from (S n) (Some (add_include c p)) ls'
      | _, _ => scopes_from (S n) cur ls'
      end
  end.

Definition scopes (ls : list line) : result scope_error (list rename) :=
  scopes_from 1 None ls.

(** The replacement list of the ScanKey rename. *)
Definition ScanKey_alias : list string := ["struct"; "ScanKeyData"; "*"].

(** The two rename directives of [pg11.h]. *)
Definition ScanKey_rename : rename :=
  Rename "ScanKey" ScanKey_alias 52 54 ["nodes/execnodes.h"].
Definition double_rename : rename :=
  Rename "double" ["float8"] 95 97 ["utils/geo_decls.h"].

(** The macro table an open scope stands for. *)
Definition table (cur : option rename) : macros :=
  match cur with
  | None => ∅
  | Some c => {[ r_sym c := r_alias c ]}
  end.

Definition is_define (l : line) : bool :=
  match l with Define _ _ => true | _ => false end.
Definition is_undef (l : line) : bool :=
  match l with Undef _ => true | _ => false end.
Definition is_include (l : line) : bool :=
  match l with Include _ => true | _ => false end.
Definition is_other (l : line) : bool :=
  match l with Other _ => true | _ => false end.
Definition is_code (l : line) : bool :=
  match l with Comment _ | Blank => false | _ => true end.

(** The file without its comment and blank lines. *)
Definition code_lines (ls : list line) : list line := filter (λ l, is_code l = true) ls.



(** The scoping test: an include is read under no rename, except the
    includes of lines 53 and 96, which are read under their own rename only. *)
Definition scoped_check (x : nat * line * macros) : bool :=
  match x.1.2 with
  | Include p =>
      if decide (p = "nodes/execnodes.h") then bool_decide (x.1.1 = 53)
      else if decide (p = "utils/geo_decls.h") then bool_decide (x.1.1 = 96)
      else bool_decide (x.2 = ∅)
  | _ => true
  end.

(** The layout test: the licence comment fills lines 1 to 8, the
    first two includes are the root header and the configuration header, and
    every other directive stands below them. *)
Definition layout_check (x : nat * line * macros) : bool :=
  match x.1.2 with
  | Comment _ => bool_decide (x.1.1 ≤ 8)
  | Blank => bool_decide (10 < x.1.1)
  | Include p =>
      if decide (p = "postgres.h") then bool_decide (x.1.1 = 9)
      else if decide (p = "pg_config.h") then bool_decide (x.1.1 = 10)
      else bool_decide (10 < x.1.1)
  | Define _ _ | Undef _ => bool_decide (10 < x.1.1)
  | Other _ => false
  end.


End Shim.

(** ** The binding emitter *)

Module Emitter.
Import Pg11 Cpp Shim.

(** Modelled from the spec: the kinds of C declaration that receive a host
    declaration. *)
Inductive decl_kind : Type := Function | Struct | Enum | Constant.

#[global] Instance decl_kind_eq_dec : EqDecision decl_kind.
Proof. solve_decision. Defined.

(** Modelled from the spec: one C declaration of an engine header, with its
    kind and its text as preprocessing tokens. *)
Record cdecl : Type := CDecl { d_kind : decl_kind; d_text : list string }.

#[global] Instance cdecl_eq_dec : EqDecision cdecl.
Proof. solve_decision. Defined.

(** Modelled from the spec: the ways a version selection is a
    configuration error. *)
Inductive config_reason : Type :=
  | Absent
  | Ambiguous
  | Unsupported (v : nat).

(** Modelled from the spec: the errors of generation. *)
Inductive error : Type :=
  | ConfigurationError (why : config_reason)
  | ParseError (path : string)
  | ShimScopeError (e : scope_error).

(** Modelled from the spec: a generated binding module, the mapping from C
    symbol name to host declaration. *)
Abbreviation module := (gmap string string).

(** The declaration as the backend sees it under the macro table [m]. *)
Definition expand_decl (m : macros) (d : cdecl) : cdecl :=
  CDecl (d_kind d) (expand m (d_text d)).

Section emitter.

(** Modelled from the spec: the host declarations, whose language the spec
    leaves open. *)
Context {Host : Type}.

(** Modelled from the spec: the header-parsing backend, which is an existing
    tool outside this repository.  Given the kind and the macro-expanded
    text of one C declaration it yields the symbol and its host declaration,
    or nothing when the declaration is skipped.  A fixed backend version is
    a fixed function. *)
Variable backend : decl_kind → list string → option (string * Host).

(** Modelled from the spec: the engine's installed header files, which are
    the input of a generation run and not part of this repository.  Each
    include path is mapped to the declarations of that header, in order; a
    path that is absent from the map is a missing header.  Includes nested
    inside the engine's headers, and macros the engine's headers define
    themselves, are not modelled. *)
Variable headers : gmap string (list cdecl).

(** Modelled from the spec: the emitter adds one host declaration for a C
    declaration. *)
Definition emit_decl (out : gmap string Host) (d : cdecl) : gmap string Host :=
  match backend (d_kind d) (d_text d) with
  | Some (sym, host) => <[sym := host]> out
  | None => out
  end.

(** Modelled from the spec: the declarations are emitted in order. *)
Definition emit_all (out : gmap string Host) (ds : list cdecl) : gmap string Host :=
  foldl emit_decl out ds.

(** Modelled from the spec: the translation unit the umbrella header
    presents to the backend.  The lines are read in order under the macro
    table of the preprocessor; each include contributes the declarations of
    its header after macro expansion, tagged with the include they come
    from; a missing header stops the run with the offending path. *)
Fixpoint preprocess_from (m : macros) (ls : list line)
  : result error (list (string * cdecl)) :=
  match ls with
  | [] => Ok []
  | l :: ls' =>
      match l with
      | Include p =>
          match headers !! p with
          | None => Err (ParseError p)
          | Some ds =>
              match preprocess_from m ls' with
              | Ok tu => Ok (((λ d, (p, expand_decl m d)) <$> ds) ++ tu)
              | Err e => Err e
              end
          end
      | _ => preprocess_from (step m l) ls'
      end
  end.


(** Modelled from the spec: the binding emitter, which produces one host
    declaration per declaration of the translation unit and aborts on the
    errors of preprocessing.  [generate_from] starts from a given macro table
    and module, [generate] from empty ones. *)
Definition generate_from (m : macros) (out : gmap string Host) (ls : list line)
  : result error (gmap string Host) :=
  match preprocess_from m ls with
  | Ok tu => Ok (emit_all out (tu.*2))
  | Err e => Err e
  end.

Definition generate (ls : list line) : result error (gmap string Host) :=
  generate_from ∅ ∅ ls.

End emitter.

(** Modelled from the spec: the upstream header set after one declaration
    [d] has been added to the header [p], at position [i] of its
    declarations. *)
Definition add_declaration (p : string) (i : nat) (d : cdecl)
    (headers : gmap string (list cdecl)) : gmap string (list cdecl) :=
  alter (λ ds, take i ds ++ d :: drop i ds) p headers.

(** Modelled from the spec: a backend whose host declarations mirror the C
    declarations.  The host declaration of a C declaration is represented by
    what it mirrors, the kind and the macro-expanded text of the
    declaration; every declaration is emitted; the symbol it is filed under
    is the backend's choice [name_of]. *)
Definition mirror (name_of : decl_kind → list string → string)
    (k : decl_kind) (toks : list string) : option (string * cdecl) :=
  Some (name_of k toks, CDecl k toks).



End Emitter.

(** ** The version multiplexer *)

Module Multiplexer.
Import Shim Emitter.

Section multiplexer.

(** Modelled from the spec: the supported engine versions and the generated
    binding module of each. *)
Variable supported : gset nat.
Variable modules : nat → module.

(** Modelled from the spec: the build-time selection names exactly one
    supported version; an absent selection, several selections and an
    unsupported version are configuration errors. *)
Definition select (sel : gset nat) : result error nat :=
  match elements sel with
  | [] => Err (ConfigurationError Absent)
  | [v] =>
      if decide (v ∈ supported) then Ok v
      else Err (ConfigurationError (Unsupported v))
  | _ :: _ :: _ => Err (ConfigurationError Ambiguous)
  end.

(** Modelled from the spec: the symbols calling code sees. *)
Definition exposed (sel : gset nat) : result error module :=
  match select sel with
  | Ok v => Ok (modules v)
  | Err e => Err e
  end.

End multiplexer.

End Multiplexer.

(** ** Declared types, for comparing a rename with a typedef *)

Module CType.
Import Pg11 Cpp.

(** The types a declaration can give a name: a type name (built in or
    introduced by a typedef), a struct referred to by its tag, pointers to
    types and const-qualified types. *)
Inductive ctype : Type :=
  | TNamed (id : string)
  | TStruct (tag : string)
  | TPtr (t : ctype)
  | TConst (t : ctype).

#[global] Instance ctype_eq_dec : EqDecision ctype.
Proof. solve_decision. Defined.

Definition ident_start (a : Ascii.ascii) : bool :=
  let n := Ascii.nat_of_ascii a in
  ((65 <=? n) && (n <=? 90)) || ((97 <=? n) && (n <=? 122)) || (n =? 95).

Definition keywords : list string :=
  ["struct"; "union"; "enum"; "const"; "volatile"; "typedef"; "extern"; "static"].

(** An identifier token: it starts with a letter or an underscore and is not
    a keyword. *)
Definition is_ident (t : string) : bool :=
  match t with
  | EmptyString => false
  | String a _ => ident_start a && bool_decide (t ∉ keywords)
  end.

(** The type specifier of a declaration: [struct tag] or a type name.
    Returns the type and the tokens that follow. *)
Definition parse_spec (toks : list string) : option (ctype * list string) :=
  match toks with
  | [] => None
  | t :: rest =>
      if decide (t = "struct") then
        match rest with
        | tag :: rest' => if is_ident tag then Some (TStruct tag, rest') else None
        | [] => None
        end
      else if is_ident t then Some (TNamed t, rest)
      else None
  end.

(** The head of a declaration: an optional [const] and the type specifier.
    The qualifier applies to the type the specifier names. *)
Definition parse_base (toks : list string) : option (ctype * list string) :=
  match toks with
  | [] => None
  | t :: rest =>
      if decide (t = "const") then
        match parse_spec rest with
        | Some (b, rest') => Some (TConst b, rest')
        | None => None
        end
      else parse_spec toks
  end.

(** One declarator: any number of [*] and then the declared name.  Each
    [*] makes a pointer to the type to its left. *)
Fixpoint parse_declarator (t : ctype) (toks : list string) : option (ctype * string) :=
  match toks with
  | [] => None
  | x :: rest =>
      if decide (x = "*") then parse_declarator (TPtr t) rest
      else
        match rest with
        | [] => if is_ident x then Some (t, x) else None
        | _ :: _ => None
        end
  end.

(** The token groups between the separators [sep]. *)
Fixpoint split_on (sep : string) (toks : list string) : list (list string) :=
  match toks with
  | [] => [[]]
  | t :: ts =>
      if decide (t = sep) then [] :: split_on sep ts
      else
        match split_on sep ts with
        | g :: gs => (t :: g) :: gs
        | [] => [[t]]
        end
  end.

Fixpoint parse_declarators (b : ctype) (groups : list (list string))
  : option (list (ctype * string)) :=
  match groups with
  | [] => Some []
  | g :: gs =>
      match parse_declarator b g, parse_declarators b gs with
      | Some d, Some ds => Some (d :: ds)
      | _, _ => None
      end
  end.

(** A declaration of fields or variables,
    [const? specifier declarator , ... , declarator]: the names it declares,
    each with its type.  The head is shared by the declarators; the [*] are
    not. *)
Definition parse_decl (toks : list string) : option (list (ctype * string)) :=
  match parse_base toks with
  | Some (b, rest) => parse_declarators b (split_on "," rest)
  | None => None
  end.

(** A parameter, or the result and name of a function:
    [const? specifier *...* name]. *)
Definition parse_param (toks : list string) : option (ctype * string) :=
  match parse_base toks with
  | Some (b, rest) => parse_declarator b rest
  | None => None
  end.

Fixpoint parse_params (groups : list (list string)) : option (list (ctype * string)) :=
  match groups with
  | [] => Some []
  | g :: gs =>
      match parse_param g, parse_params gs with
      | Some d, Some ds => Some (d :: ds)
      | _, _ => None
      end
  end.

(** The tokens before the first [sep] and those after it. *)
Fixpoint break_at (sep : string) (toks : list string)
  : option (list string * list string) :=
  match toks with
  | [] => None
  | t :: ts =>
      if decide (t = sep) then Some ([], ts)
      else
        match break_at sep ts with
        | Some (a, b) => Some (t :: a, b)
        | None => None
        end
  end.

(** The tokens before a final [sep]. *)
Fixpoint strip_last (sep : string) (toks : list string) : option (list string) :=
  match toks with
  | [] => None
  | t :: ts =>
      match ts with
      | [] => if decide (t = sep) then Some [] else None
      | _ :: _ =>
          match strip_last sep ts with
          | Some r => Some (t :: r)
          | None => None
          end
      end
  end.

(** The parts of a function prototype [result name ( parameters )]: the
    tokens of the result and name, and the token group of each parameter;
    [( void )] is no parameter. *)
Definition proto_parts (toks : list string)
  : option (list string * list (list string)) :=
  match break_at "(" toks with
  | Some (head, rest) =>
      match strip_last ")" rest with
      | Some inner =>
          Some (head, if decide (inner = ["void"]) then [] else split_on "," inner)
      | None => None
      end
  | None => None
  end.

(** The signature a prototype declares. *)
Record signature : Type := Sig {
  s_name : string;
  s_result : ctype;
  s_params : list (ctype * string)
}.

Definition parse_proto (toks : list string) : option signature :=
  match proto_parts toks with
  | Some (head, groups) =>
      match parse_param head, parse_params groups with
      | Some (r, f), Some ps => Some (Sig f r ps)
      | _, _ => None
      end
  | None => None
  end.

(** The parts of a struct declaration [struct tag { field ; ... field ; }]:
    the tag and the token group of each field declaration. *)
Definition struct_parts (toks : list string)
  : option (string * list (list string)) :=
  match toks with
  | kw :: tag :: open :: body =>
      if decide (kw = "struct") then
        if decide (open = "{") then
          match strip_last "}" body with
          | Some inner =>
              match strip_last ";" inner with
              | Some fields =>
                  if is_ident tag then Some (tag, split_on ";" fields) else None
              | None => None
              end
          | None => None
          end
        else None
      else None
  | _ => None
  end.

Fixpoint parse_fields (groups : list (list string)) : option (list (ctype * string)) :=
  match groups with
  | [] => Some []
  | g :: gs =>
      match parse_decl g, parse_fields gs with
      | Some ds, Some ds' => Some (ds ++ ds')
      | _, _ => None
      end
  end.

(** The tag of a struct declaration and the fields it declares. *)
Definition parse_struct (toks : list string)
  : option (string * list (ctype * string)) :=
  match struct_parts toks with
  | Some (tag, groups) =>
      match parse_fields groups with
      | Some fs => Some (tag, fs)
      | None => None
      end
  | None => None
  end.

(** A type written without a name: [specifier *...*]. *)
Fixpoint parse_stars (t : ctype) (toks : list string) : option ctype :=
  match toks with
  | [] => Some t
  | x :: rest => if decide (x = "*") then parse_stars (TPtr t) rest else None
  end.

Definition parse_type (toks : list string) : option ctype :=
  match parse_spec toks with
  | Some (t, rest) => parse_stars t rest
  | None => None
  end.

(** Two types are the same type under the typedefs [tenv]: a typedef name
    and the type it is declared as are interchangeable, everywhere. *)
Inductive tyeq (tenv : gmap string ctype) : ctype → ctype → Prop :=
  | tyeq_refl t : tyeq tenv t t
  | tyeq_sym t u : tyeq tenv t u → tyeq tenv u t
  | tyeq_trans t u v : tyeq tenv t u → tyeq tenv u v → tyeq tenv t v
  | tyeq_ptr t u : tyeq tenv t u → tyeq tenv (TPtr t) (TPtr u)
  | tyeq_const t u : tyeq tenv t u → tyeq tenv (TConst t) (TConst u)
  | tyeq_typedef n t : tenv !! n = Some t → tyeq tenv (TNamed n) t.

(** The same name with the same type. *)
Definition same_decl (tenv : gmap string ctype) (d' d : ctype * string) : Prop :=
  d'.2 = d.2 ∧ tyeq tenv d'.1 d.1.

(** The same function name, result type and parameters. *)
Definition same_signature (tenv : gmap string ctype) (s' s : signature) : Prop :=
  s_name s' = s_name s ∧ tyeq tenv (s_result s') (s_result s) ∧
  Forall2 (same_decl tenv) (s_params s') (s_params s).

(** A type with its typedef names replaced by the types they are declared
    as, once. *)
Fixpoint unfold_typedefs (tenv : gmap string ctype) (t : ctype) : ctype :=
  match t with
  | TNamed n => default (TNamed n) (tenv !! n)
  | TStruct tag => TStruct tag
  | TPtr t' => TPtr (unfold_typedefs tenv t')
  | TConst t' => TConst (unfold_typedefs tenv t')
  end.


(** The symbol [s] is used plainly in the tokens of a parameter: not at
    all, or once, as the unqualified type specifier. *)
Definition plain_use (s : string) (toks : list string) : Prop :=
  s ∉ toks ∨ ∃ rest, toks = s :: rest ∧ s ∉ rest.

(** The symbol is used plainly in a declaration: not at all, or once, as the
    unqualified type specifier of a single declarator. *)
Definition plain_decl (s : string) (toks : list string) : Prop :=
  s ∉ toks ∨ ∃ rest, toks = s :: rest ∧ (s ∉ rest) ∧ ("," ∉ rest).

(** The symbol is used plainly in the result and in every parameter of a
    prototype. *)
Definition plain_proto (s : string) (toks : list string) : Prop :=
  match proto_parts toks with
  | Some (head, groups) => plain_use s head ∧ Forall (plain_use s) groups
  | None => False
  end.

(** The engine's typedef makes ScanKey the pointer to struct ScanKeyData. *)
Definition ScanKey_is_pointer (tenv : gmap string ctype) : Prop :=
  tenv !! "ScanKey" = Some (TPtr (TStruct "ScanKeyData")).

(** A token that the ScanKey rename neither replaces nor produces. *)
Definition separator (sep : string) : Prop :=
  sep ≠ "ScanKey" ∧ sep ≠ "struct" ∧ sep ≠ "ScanKeyData" ∧ sep ≠ "*".

(** The symbol is not the tag of a struct declaration and is used plainly
    in every field declaration. *)
Definition plain_struct (s : string) (toks : list string) : Prop :=
  match struct_parts toks with
  | Some (tag, groups) => tag ≠ s ∧ Forall (plain_decl s) groups
  | None => False
  end.

End CType.


(** ** Example inputs *)

Module Examples.
Import Pg11 Cpp Shim Emitter CType.

(** A naming for the worked examples: a function is filed under the
    identifier that stands before its first parenthesis, any other
    declaration under its second token. *)
Fixpoint symbol_before_paren (prev : option string) (toks : list string)
  : option string :=
  match toks with
  | [] => None
  | t :: ts => if decide (t = "(") then prev else symbol_before_paren (Some t) ts
  end.

Definition example_name (k : decl_kind) (toks : list string) : string :=
  match k with
  | Function => default "" (symbol_before_paren None toks)
  | _ => default "" (toks !! 1)
  end.

(** Engine headers in which every include of [pg11.h] resolves to a header
    without declarations. *)
Definition empty_headers : gmap string (list cdecl) :=
  list_to_map ((λ p, (p, [])) <$> includes pg11_h).

(** A function with ScanKey parameters, as access/genam.h declares it. *)
Definition index_rescan_decl : cdecl :=
  CDecl Function
    ["void"; "index_rescan"; "("; "IndexScanDesc"; "scan"; ",";
     "ScanKey"; "keys"; ","; "int"; "nkeys"; ","; "ScanKey"; "orderbys"; ",";
     "int"; "norderbys"; ")"].

(** A struct with ScanKey fields, as nodes/execnodes.h declares them. *)
Definition IndexScanState_decl : cdecl :=
  CDecl Struct
    ["struct"; "IndexScanState"; "{";
       "ScanKey"; "iss_ScanKeys"; ";";
       "int"; "iss_NumScanKeys"; ";";
       "ScanKey"; "iss_OrderByKeys"; ";";
       "int"; "iss_NumOrderByKeys"; ";";
     "}"].

(** The same struct with each ScanKey replaced by its alias. *)
Definition IndexScanState_renamed : cdecl :=
  CDecl Struct
    ["struct"; "IndexScanState"; "{";
       "struct"; "ScanKeyData"; "*"; "iss_ScanKeys"; ";";
       "int"; "iss_NumScanKeys"; ";";
       "struct"; "ScanKeyData"; "*"; "iss_OrderByKeys"; ";";
       "int"; "iss_NumOrderByKeys"; ";";
     "}"].

(** Functions with double results, as utils/date.h and utils/geo_decls.h
    declare them. *)
Definition date2timestamp_decl : cdecl :=
  CDecl Function
    ["double"; "date2timestamp_no_overflow"; "("; "DateADT"; "dateVal"; ")"].


(** Engine headers in which nodes/execnodes.h declares [IndexScanState_decl]
    and access/genam.h declares [index_rescan_decl]. *)
Definition ScanKey_headers : gmap string (list cdecl) :=
  <[ "nodes/execnodes.h" := [IndexScanState_decl] ]>
    (<[ "access/genam.h" := [index_rescan_decl] ]> empty_headers).


(** The engine's typedef of ScanKey (access/skey.h). *)
Definition ScanKey_typedef : gmap string ctype :=
  {[ "ScanKey" := TPtr (TStruct "ScanKeyData") ]}.

End Examples.

(** * Properties *)

(** ** The scope check is sound for the preprocessor *)

Module ShimFacts.
Import Pg11 Cpp Shim.

Lemma run_cons m l ls : run m (l :: ls) = run (step m l) ls.
Proof. reflexivity. Qed.

Lemma table_size cur : size (table cur) ≤ 1.
Proof.
  destruct cur as [c|]; unfold table.
  - rewrite map_size_singleton. lia.
  - rewrite map_size_empty. lia.
Qed.

(** One line keeps the table in step with the open scope of the check. *)
Lemma scopes_from_step n cur l ls rs :
  scopes_from n cur (l :: ls) = Ok rs →
  ∃ cur' rs', scopes_from (S n) cur' ls = Ok rs' ∧ step (table cur) l = table cur'.
Proof.
  intros H. destruct l as [txt| |p|s b|s|txt].
  - exists cur, rs. by destruct cur.
  - exists cur, rs. by destruct cur.
  - destruct cur as [c|]; simpl in H.
    + by exists (Some (add_include c p)), rs.
    + by exists None, rs.
  - destruct cur as [c|]; simpl in H; [discriminate|].
    exists (Some (Rename s b n n [])), rs. split; [done|]. apply insert_empty.
  - destruct cur as [c|]; simpl in H; [|discriminate].
    destruct (decide (s = r_sym c)) as [->|]; [|discriminate].
    destruct (scopes_from (S n) None ls) as [rs'|] eqn:E; [|discriminate].
    exists None, rs'. split; [done|]. apply delete_singleton_eq.
  - exists cur, rs. by destruct cur.
Qed.

(** A header that passes the check leaves no rename active at its end. *)
Lemma scopes_from_closed n cur ls rs :
  scopes_from n cur ls = Ok rs → run (table cur) ls = ∅.
Proof.
  revert n cur rs. induction ls as [|l ls IH]; intros n cur rs H.
  - destruct cur; [discriminate|done].
  - destruct (scopes_from_step _ _ _ _ _ H) as (cur' & rs' & H' & Hstep).
    rewrite run_cons, Hstep. by eapply IH.
Qed.

(** A header that passes the check never has two renames active at once. *)
Lemma scopes_from_disjoint n cur ls rs k :
  scopes_from n cur ls = Ok rs → size (run (table cur) (take k ls)) ≤ 1.
Proof.
  revert n cur rs k. induction ls as [|l ls IH]; intros n cur rs k H.
  - rewrite take_nil. apply table_size.
  - destruct k as [|k]; [apply table_size|].
    destruct (scopes_from_step _ _ _ _ _ H) as (cur' & rs' & H' & Hstep).
    rewrite firstn_cons, run_cons, Hstep. by eapply IH.
Qed.

(** An open scope is closed by an [#undef] of its symbol further down. *)
Lemma scopes_from_open_closes n c ls rs :
  scopes_from n (Some c) ls = Ok rs →
  ∃ j, ls !! j = Some (Undef (r_sym c)).
Proof.
  revert n c rs. induction ls as [|l ls IH]; intros n c rs H; [discriminate|].
  destruct l as [txt| |p|s b|s|txt]; simpl in H; try discriminate.
  - destruct (IH _ _ _ H) as [j Hj]. by exists (S j).
  - destruct (IH _ _ _ H) as [j Hj]. by exists (S j).
  - destruct (IH _ _ _ H) as [j Hj]. by exists (S j).
  - destruct (decide (s = r_sym c)) as [->|]; [|discriminate]. by exists 0.
  - destruct (IH _ _ _ H) as [j Hj]. by exists (S j).
Qed.

(** In a header that passes the check every [#define] has its [#undef]
    below it. *)
Lemma scopes_from_terminated n cur ls rs i s b :
  scopes_from n cur ls = Ok rs →
  ls !! i = Some (Define s b) →
  ∃ j, i < j ∧ j < length ls ∧ ls !! j = Some (Undef s).
Proof.
  revert n cur rs i. induction ls as [|l ls IH]; intros n cur rs i H Hi; [done|].
  destruct i as [|i].
  - simpl in Hi. injection Hi as ->.
    destruct cur as [c|]; simpl in H; [discriminate|].
    destruct (scopes_from_open_closes _ _ _ _ H) as [j Hj]. simpl in Hj.
    exists (S j). split; [lia|]. split; [|done].
    apply lookup_lt_Some in Hj. simpl. lia.
  - simpl in Hi.
    destruct (scopes_from_step _ _ _ _ _ H) as (cur' & rs' & H' & _).
    destruct (IH _ _ _ _ H' Hi) as (j & ? & ? & ?).
    exists (S j). split; [lia|]. split; [simpl; lia|done].
Qed.

(** The trace lists every line under the table the preprocessor has when
    it reads the line. *)
Lemma trace_lookup n m ls i l :
  ls !! i = Some l → (n + i, l, run m (take i ls)) ∈ trace n m ls.
Proof.
  revert n m i. induction ls as [|l' ls IH]; intros n m i Hi; [done|].
  destruct i as [|i]; simpl in Hi.
  - injection Hi as ->. rewrite Nat.add_0_r. apply list_elem_of_here.
  - replace (n + S i) with (S n + i) by lia.
    apply list_elem_of_further. rewrite firstn_cons, run_cons. by apply IH.
Qed.

Lemma includes_env_lookup m ls i p :
  ls !! i = Some (Include p) → (p, run m (take i ls)) ∈ includes_env m ls.
Proof.
  revert m i. induction ls as [|l' ls IH]; intros m i Hi; [done|].
  destruct i as [|i]; simpl in Hi.
  - injection Hi as ->. apply list_elem_of_here.
  - rewrite firstn_cons, run_cons. specialize (IH (step m l') _ Hi).
    destruct l'; simpl; try done. by apply list_elem_of_further.
Qed.

Lemma includes_lookup ls i p : ls !! i = Some (Include p) → p ∈ includes ls.
Proof.
  intros Hi. unfold includes. apply list_elem_of_fmap.
  exists (p, run ∅ (take i ls)). split; [done|]. by apply includes_env_lookup.
Qed.

(** A test that succeeds along the trace of [pg11.h] succeeds on each line
    of the file. *)
Lemma pg11_lines (chk : nat * line * macros → bool) n l :
  forallb chk (trace 1 ∅ pg11_h) = true →
  line_at n = Some l → chk (n, l, active_at_line n) = true.
Proof.
  intros HP Hn. destruct n as [|i]; [done|]. simpl in Hn.
  rewrite forallb_forall in HP. unfold active_at_line, macros_before.
  replace (S i - 1) with i by lia. by apply HP, list_elem_of_In, (trace_lookup 1).
Qed.

Lemma bind_singletons (body : list string) : body ≫= (λ u, [u]) = body.
Proof.
  induction body as [|u body IH]; [done|].
  change (u :: (body ≫= (λ u, [u])) = u :: body). by rewrite IH.
Qed.

(** The fuel [expand] gives to [expand_tok] is enough: more fuel changes
    nothing. *)
Lemma expand_tok_fuel f m t :
  size m ≤ f → expand_tok f m t = expand_tok (size m) m t.
Proof.
  revert m t. induction f as [|f IH]; intros m t Hf.
  - by replace (size m) with 0 by lia.
  - destruct (m !! t) as [body|] eqn:Ht.
    + assert (Hsz : size m = S (size (delete t m))).
      { rewrite <- (insert_delete_id m t body Ht) at 1.
        rewrite map_size_insert_None; [done|]. apply lookup_delete_eq. }
      rewrite Hsz. simpl. rewrite Ht.
      apply list_bind_ext; [|done]. intros u. apply IH. lia.
    + simpl. rewrite Ht. destruct (size m); simpl; by rewrite ?Ht.
Qed.

(** With no rename in effect the text is left as it is. *)
Lemma expand_empty toks : expand ∅ toks = toks.
Proof. unfold expand. rewrite map_size_empty. apply bind_singletons. Qed.

(** Under a single rename a token is replaced only if it is the renamed
    symbol. *)
Lemma expand_singleton_cons s body t toks :
  expand {[ s := body ]} (t :: toks) =
  (if decide (t = s) then body else [t]) ++ expand {[ s := body ]} toks.
Proof.
  unfold expand. rewrite map_size_singleton.
  change ((t :: toks) ≫= expand_tok 1 {[ s := body ]})
    with (expand_tok 1 {[ s := body ]} t
          ++ (toks ≫= expand_tok 1 {[ s := body ]})).
  f_equal. simpl. case_decide as Ht.
  - subst t. rewrite lookup_singleton_eq. apply bind_singletons.
  - by rewrite lookup_singleton_ne.
Qed.


Lemma expand_app m toks1 toks2 :
  expand m (toks1 ++ toks2) = expand m toks1 ++ expand m toks2.
Proof. apply bind_app. Qed.



Lemma expand_no_defined_name (m : macros) (toks : list string) :
  (∀ t, t ∈ toks → m !! t = None) → expand m toks = toks.
Proof.
  intros H. unfold expand. induction toks as [|t toks IH]; [done|].
  change (expand_tok (size m) m t ++ (toks ≫= expand_tok (size m) m) = t :: toks).
  rewrite IH by (intros u Hu; by apply H, list_elem_of_further).
  assert (Ht : expand_tok (size m) m t = [t]); [|by rewrite Ht].
  destruct (size m); simpl; [done|].
  by rewrite (H t (list_elem_of_here _ _)).
Qed.

Lemma pg11_scopes : scopes pg11_h = Ok [ScanKey_rename; double_rename].
Proof. vm_compute. reflexivity. Qed.

End ShimFacts.

(** ** The scoping of the two renames in [pg11.h] *)

Module HeaderFacts.
Import Pg11 Cpp Shim ShimFacts.

(** C1: every rename opened in [pg11.h] is terminated and no two overlap.
    The file defines ScanKey at line 52 and double at line 95 and nothing
    else; each [#define] is followed by the [#undef] of the same symbol
    before the end of the file (lines 54 and 97); the ScanKey scope is closed
    before the double scope is opened; whatever line the preprocessor is
    about to read, at most one rename is active; and none is active at the
    end of the file. *)
Theorem renames_terminated_and_disjoint :
  line_at 52 = Some (Define "ScanKey" ["struct"; "ScanKeyData"; "*"]) ∧
  line_at 54 = Some (Undef "ScanKey") ∧
  line_at 95 = Some (Define "double" ["float8"]) ∧
  line_at 97 = Some (Undef "double") ∧
  (∀ n s b, line_at n = Some (Define s b) → n = 52 ∨ n = 95) ∧
  (∀ n s b, line_at n = Some (Define s b) →
     ∃ k, n < k ∧ k ≤ length pg11_h ∧ line_at k = Some (Undef s)) ∧
  54 < 95 ∧
  (∀ n, size (active_at_line n) ≤ 1) ∧
  active_at_eof = ∅.
Proof.
  pose proof pg11_scopes as Hsc. unfold scopes in Hsc.
  split_and!; [reflexivity..| | | | |].
  - intros n s b Hn.
    pose proof (pg11_lines
      (λ x, match x.1.2 with
            | Define _ _ => bool_decide (x.1.1 = 52 ∨ x.1.1 = 95)
            | _ => true
            end) n _ eq_refl Hn) as H.
    simpl in H. by apply bool_decide_eq_true in H.
  - intros n s b Hn. destruct n as [|i]; [done|]. simpl in Hn.
    destruct (scopes_from_terminated _ _ _ _ _ _ _ Hsc Hn) as (j & ? & ? & ?).
    exists (S j). split; [lia|]. split; [lia|done].
  - lia.
  - intros n. apply (scopes_from_disjoint 1 None _ _ (n - 1) Hsc).
  - apply (scopes_from_closed 1 None _ _ Hsc).
Qed.

(** C2: each of the two renames of [pg11.h] is minimally scoped.  The
    [#define] stands on the line just before the one include it protects and
    the [#undef] on the line just after it (lines 52 to 54 around
    nodes/execnodes.h, lines 95 to 97 around utils/geo_decls.h); each of the
    two scopes holds that single include; inside, only the scope's own rename
    is in effect; and every other include of the file is read with no rename
    in effect. *)
Theorem renames_minimally_scoped :
  (line_at 52 = Some (Define "ScanKey" ["struct"; "ScanKeyData"; "*"]) ∧
   line_at 53 = Some (Include "nodes/execnodes.h") ∧
   line_at 54 = Some (Undef "ScanKey")) ∧
  (line_at 95 = Some (Define "double" ["float8"]) ∧
   line_at 96 = Some (Include "utils/geo_decls.h") ∧
   line_at 97 = Some (Undef "double")) ∧
  scopes pg11_h = Ok [ScanKey_rename; double_rename] ∧
  r_includes ScanKey_rename = ["nodes/execnodes.h"] ∧
  r_includes double_rename = ["utils/geo_decls.h"] ∧
  active_at_line 53 = {[ "ScanKey" := ["struct"; "ScanKeyData"; "*"] ]} ∧
  active_at_line 96 = {[ "double" := ["float8"] ]} ∧
  (∀ n p, line_at n = Some (Include p) →
     p ≠ "nodes/execnodes.h" → p ≠ "utils/geo_decls.h" →
     active_at_line n = ∅) ∧
  (∀ n, line_at n = Some (Include "nodes/execnodes.h") → n = 53) ∧
  (∀ n, line_at n = Some (Include "utils/geo_decls.h") → n = 96).
Proof.
  assert (Hchk : ∀ n l, line_at n = Some l →
            scoped_check (n, l, active_at_line n) = true).
  { intros n l. by apply pg11_lines. }
  split_and!; try reflexivity.
  - intros n p Hn H1 H2. specialize (Hchk _ _ Hn).
    unfold scoped_check in Hchk. simpl in Hchk.
    repeat case_decide; first [done | by apply bool_decide_eq_true in Hchk].
  - intros n Hn. specialize (Hchk _ _ Hn). by apply bool_decide_eq_true in Hchk.
  - intros n Hn. specialize (Hchk _ _ Hn). by apply bool_decide_eq_true in Hchk.
Qed.

(** C5: [pg11.h] is a list of includes with exactly two scoped work-arounds
    and nothing else.  Apart from the licence comment and blank lines, a line
    of the file is an [#include], a [#define] or an [#undef]; there are
    exactly two [#define] lines and two [#undef] lines, for ScanKey and for
    double; they pair up into exactly two scopes, each around one include;
    no line is any other directive or C code. *)
Theorem header_is_includes_and_two_shims :
  Forall (λ l, is_include l = true ∨ is_define l = true ∨ is_undef l = true)
    (code_lines pg11_h) ∧
  (∀ n l, line_at n = Some l → is_other l = false) ∧
  filter (λ l, is_define l = true) pg11_h =
    [Define "ScanKey" ["struct"; "ScanKeyData"; "*"]; Define "double" ["float8"]] ∧
  filter (λ l, is_undef l = true) pg11_h = [Undef "ScanKey"; Undef "double"] ∧
  scopes pg11_h = Ok [ScanKey_rename; double_rename] ∧
  length (code_lines pg11_h) = length (includes pg11_h) + 4 ∧
  length (includes pg11_h) = 94.
Proof.
  split_and!; try reflexivity.
  - by apply (bool_decide_unpack _).
  - intros n l Hn.
    pose proof (pg11_lines layout_check n l eq_refl Hn) as H.
    by destruct l.
Qed.

(** C9: the engine's root header comes first.  The first include of
    [pg11.h] is postgres.h (line 9, with only the licence comment above it)
    and the second is pg_config.h (line 10); every other include of the
    file stands below both, so that when it is read postgres.h and
    pg_config.h are among the includes already processed. *)
Theorem root_header_first :
  line_at 9 = Some (Include "postgres.h") ∧
  line_at 10 = Some (Include "pg_config.h") ∧
  (∀ n l, line_at n = Some l → n < 9 → ∃ t, l = Comment t) ∧
  take 2 (includes pg11_h) = ["postgres.h"; "pg_config.h"] ∧
  (∀ n p, line_at n = Some (Include p) →
     p ≠ "postgres.h" → p ≠ "pg_config.h" →
     10 < n ∧
     "postgres.h" ∈ includes (take (n - 1) pg11_h) ∧
     "pg_config.h" ∈ includes (take (n - 1) pg11_h)) ∧
  (∀ n, line_at n = Some (Include "postgres.h") → n = 9) ∧
  (∀ n, line_at n = Some (Include "pg_config.h") → n = 10).
Proof.
  assert (Hchk : ∀ n l, line_at n = Some l →
            layout_check (n, l, active_at_line n) = true).
  { intros n l. by apply pg11_lines. }
  split_and!; try reflexivity.
  - intros n l Hn Hlt. specialize (Hchk _ _ Hn).
    unfold layout_check in Hchk. simpl in Hchk.
    destruct l; [by eexists|..]; try done;
      repeat case_decide; apply bool_decide_eq_true in Hchk; lia.
  - intros n p Hn H1 H2. specialize (Hchk _ _ Hn).
    unfold layout_check in Hchk. simpl in Hchk.
    repeat case_decide; try done. apply bool_decide_eq_true in Hchk.
    split; [done|].
    split; [apply (includes_lookup _ 8)|apply (includes_lookup _ 9)];
      by rewrite lookup_take_lt by lia.
  - intros n Hn. specialize (Hchk _ _ Hn). by apply bool_decide_eq_true in Hchk.
  - intros n Hn. specialize (Hchk _ _ Hn). by apply bool_decide_eq_true in Hchk.
Qed.

End HeaderFacts.

(** ** The version multiplexer rejects ambiguous selections *)

Module MultiplexerFacts.
Import Shim Emitter Multiplexer.

Lemma elements_one (sel : gset nat) v : elements sel = [v] → sel = {[ v ]}.
Proof.
  intros He. apply set_eq. intros x.
  by rewrite <- elem_of_elements, He, list_elem_of_singleton, elem_of_singleton.
Qed.

(** A selection that is accepted names one supported version. *)
Lemma select_ok supported (sel : gset nat) v :
  select supported sel = Ok v → sel = {[ v ]} ∧ v ∈ supported.
Proof.
  unfold select. destruct (elements sel) as [|a [|b l]] eqn:He; [done| |done].
  case_decide; [|done]. intros Hv. injection Hv as ->.
  split; [by apply elements_one|done].
Qed.

(** C7: enabling more than one version selection fails with a
    ConfigurationError, and no module is exposed then; whenever a module is
    exposed, the selection named exactly one supported version and the
    exposed symbols are those of that version's module. *)
Theorem two_selections_rejected (supported : gset nat) (modules : nat → module)
    (sel : gset nat) :
  1 < size sel →
  select supported sel = Err (ConfigurationError Ambiguous) ∧
  exposed supported modules sel = Err (ConfigurationError Ambiguous) ∧
  (∀ m, exposed supported modules sel ≠ Ok m) ∧
  (∀ sel' m, exposed supported modules sel' = Ok m →
     ∃ v, sel' = {[ v ]} ∧ v ∈ supported ∧ m = modules v).
Proof.
  intros Hsz.
  assert (Hsel : select supported sel = Err (ConfigurationError Ambiguous)).
  { unfold select. unfold size, set_size in Hsz. simpl in Hsz.
    destruct (elements sel) as [|a [|b l]]; simpl in Hsz; [lia..|done]. }
  split_and!; [done|by unfold exposed; rewrite Hsel|by unfold exposed; rewrite Hsel|].
  intros sel' m. unfold exposed.
  destruct (select supported sel') as [v|e] eqn:Hv; [|done].
  intros [= <-]. exists v. destruct (select_ok _ _ _ Hv). done.
Qed.

(** Versions 11 and 12 enabled together, with versions 10 to 13 supported. *)
Lemma two_selections_rejected_witness :
  1 < size ({[ 11; 12 ]} : gset nat) ∧
  exposed {[ 10; 11; 12; 13 ]} (λ _, ∅) {[ 11; 12 ]}
    = Err (ConfigurationError Ambiguous).
Proof.
  assert (H : 1 < size ({[ 11; 12 ]} : gset nat)) by (vm_compute; lia).
  split; [exact H|].
  exact (proj1 (proj2 (two_selections_rejected {[ 10; 11; 12; 13 ]} (λ _, ∅) {[ 11; 12 ]} H))).
Defined.

End MultiplexerFacts.


(** ** The ScanKey alias is the type the typedef denotes *)

Module CTypeFacts.
Import Pg11 Cpp Shim ShimFacts CType.

Lemma ScanKey_scope_table : active_at_line 53 = {[ "ScanKey" := ScanKey_alias ]}.
Proof. reflexivity. Qed.

(** Under the ScanKey rename a token is replaced only if it is ScanKey. *)
Lemma expand_ScanKey_cons t toks :
  expand (active_at_line 53) (t :: toks) =
  (if decide (t = "ScanKey") then ScanKey_alias else [t])
    ++ expand (active_at_line 53) toks.
Proof. rewrite ScanKey_scope_table. apply expand_singleton_cons. Qed.

Lemma expand_ScanKey_absent toks :
  "ScanKey" ∉ toks → expand (active_at_line 53) toks = toks.
Proof.
  intros H. apply expand_no_defined_name. intros t Ht.
  rewrite ScanKey_scope_table. apply lookup_singleton_ne. by intros <-.
Qed.

Lemma expand_ScanKey_nil_inv toks :
  expand (active_at_line 53) toks = [] → toks = [].
Proof.
  destruct toks as [|t toks]; [done|]. rewrite expand_ScanKey_cons.
  by case_decide.
Qed.

Lemma expand_ScanKey_void toks :
  expand (active_at_line 53) toks = ["void"] ↔ toks = ["void"].
Proof.
  split; [|by intros ->].
  destruct toks as [|t toks]; [done|]. rewrite expand_ScanKey_cons.
  case_decide; [done|]. simpl. intros [= -> Hn].
  by rewrite (expand_ScanKey_nil_inv _ Hn).
Qed.

Lemma split_on_sep sep ts : split_on sep (sep :: ts) = [] :: split_on sep ts.
Proof. simpl. by rewrite decide_True. Qed.

Lemma split_on_other sep t ts :
  t ≠ sep →
  split_on sep (t :: ts)
    = match split_on sep ts with g :: gs => (t :: g) :: gs | [] => [[t]] end.
Proof. intros. simpl. by rewrite decide_False. Qed.

Lemma break_at_sep sep ts : break_at sep (sep :: ts) = Some ([], ts).
Proof. simpl. by rewrite decide_True. Qed.

Lemma break_at_other sep t ts :
  t ≠ sep →
  break_at sep (t :: ts)
    = match break_at sep ts with Some (a, b) => Some (t :: a, b) | None => None end.
Proof. intros. simpl. by rewrite decide_False. Qed.

(** The separators of declarations are not touched by the rename, so the
    split of a text into groups is the same before and after it. *)
Lemma expand_split sep toks :
  separator sep →
  split_on sep (expand (active_at_line 53) toks)
    = expand (active_at_line 53) <$> split_on sep toks.
Proof.
  intros (H1 & H2 & H3 & H4). induction toks as [|t toks IH]; [done|].
  rewrite expand_ScanKey_cons. case_decide as Ht.
  - subst t. unfold ScanKey_alias.
    change (["struct"; "ScanKeyData"; "*"] ++ ?l)
      with ("struct" :: "ScanKeyData" :: "*" :: l).
    rewrite !split_on_other, IH by done.
    destruct (split_on sep toks) as [|g gs].
    + rewrite fmap_nil, !fmap_cons, fmap_nil, expand_ScanKey_cons, decide_True by done.
      reflexivity.
    + rewrite !fmap_cons, expand_ScanKey_cons, decide_True by done. done.
  - change ([t] ++ ?l) with (t :: l).
    destruct (decide (t = sep)) as [->|Hs].
    + by rewrite !split_on_sep, fmap_cons, IH.
    + rewrite !split_on_other, IH by done.
      destruct (split_on sep toks) as [|g gs].
      * rewrite fmap_nil, !fmap_cons, fmap_nil, expand_ScanKey_cons, decide_False by done.
        reflexivity.
      * rewrite !fmap_cons, expand_ScanKey_cons, decide_False by done. done.
Qed.

Lemma expand_break sep toks :
  separator sep →
  break_at sep (expand (active_at_line 53) toks)
    = (λ ab, (expand (active_at_line 53) ab.1, expand (active_at_line 53) ab.2))
        <$> break_at sep toks.
Proof.
  intros (H1 & H2 & H3 & H4). induction toks as [|t toks IH]; [done|].
  rewrite expand_ScanKey_cons. case_decide as Ht.
  - subst t. unfold ScanKey_alias.
    change (["struct"; "ScanKeyData"; "*"] ++ ?l)
      with ("struct" :: "ScanKeyData" :: "*" :: l).
    rewrite !break_at_other, IH by done.
    destruct (break_at sep toks) as [[a b]|]; [|done].
    cbn [fmap option_fmap option_map fst snd].
    by rewrite expand_ScanKey_cons, decide_True.
  - change ([t] ++ ?l) with (t :: l).
    destruct (decide (t = sep)) as [->|Hs].
    + by rewrite !break_at_sep.
    + rewrite !break_at_other, IH by done.
      destruct (break_at sep toks) as [[a b]|]; [|done].
      cbn [fmap option_fmap option_map fst snd].
      by rewrite expand_ScanKey_cons, decide_False.
Qed.

Lemma strip_last_snoc sep r : strip_last sep (r ++ [sep]) = Some r.
Proof.
  induction r as [|t r IH]; simpl; [by rewrite decide_True|].
  rewrite IH. by destruct r.
Qed.

Lemma strip_last_inv sep toks r :
  strip_last sep toks = Some r → toks = r ++ [sep].
Proof.
  revert r. induction toks as [|t toks IH]; intros r H; [done|].
  simpl in H. destruct toks as [|u toks].
  - case_decide; [|done]. injection H as <-. by subst.
  - destruct (strip_last sep (u :: toks)) as [r'|]; [|done].
    injection H as <-. simpl. f_equal. by apply IH.
Qed.

Lemma expand_strip sep toks inner :
  separator sep →
  strip_last sep toks = Some inner →
  strip_last sep (expand (active_at_line 53) toks)
    = Some (expand (active_at_line 53) inner).
Proof.
  intros Hsep Hs. apply strip_last_inv in Hs as ->.
  rewrite expand_app, expand_ScanKey_cons.
  rewrite decide_False by (destruct Hsep as [? _]; done).
  apply strip_last_snoc.
Qed.

(** *** Declarations that use ScanKey plainly keep their types *)

Lemma same_decl_refl tenv d : same_decl tenv d d.
Proof. split; [done|constructor]. Qed.

Lemma same_decls_refl tenv ds : Forall2 (same_decl tenv) ds ds.
Proof. induction ds; constructor; [apply same_decl_refl|done]. Qed.

(** A declarator gives equal types from equal base types. *)
Lemma parse_declarator_tyeq tenv b b' toks t x :
  tyeq tenv b' b → parse_declarator b toks = Some (t, x) →
  ∃ t', parse_declarator b' toks = Some (t', x) ∧ tyeq tenv t' t.
Proof.
  revert b b'. induction toks as [|y rest IH]; intros b b' Hb H; [done|].
  simpl in *. case_decide.
  - apply (IH (TPtr b)); [by constructor|done].
  - destruct rest; [|done]. destruct (is_ident y); [|done].
    injection H as -> ->. by exists b'.
Qed.

(** The head [ScanKey] of a declaration reads, under the rename, as the
    head [struct ScanKeyData] followed by one [*]. *)
Lemma shim_head tenv rest t x :
  ScanKey_is_pointer tenv →
  "ScanKey" ∉ rest →
  parse_declarator (TNamed "ScanKey") rest = Some (t, x) →
  parse_base (expand (active_at_line 53) ("ScanKey" :: rest))
    = Some (TStruct "ScanKeyData", "*" :: rest) ∧
  ∃ t', parse_declarator (TStruct "ScanKeyData") ("*" :: rest) = Some (t', x) ∧
        tyeq tenv t' t.
Proof.
  intros Htd Hr Hp. split.
  - rewrite expand_ScanKey_cons, decide_True, expand_ScanKey_absent by done.
    reflexivity.
  - change (parse_declarator (TStruct "ScanKeyData") ("*" :: rest))
      with (parse_declarator (TPtr (TStruct "ScanKeyData")) rest).
    apply (parse_declarator_tyeq tenv (TNamed "ScanKey")); [|done].
    apply tyeq_sym. by constructor.
Qed.

Lemma parse_base_ScanKey rest :
  parse_base ("ScanKey" :: rest) = Some (TNamed "ScanKey", rest).
Proof. reflexivity. Qed.

Lemma shim_param tenv toks t x :
  ScanKey_is_pointer tenv →
  parse_param toks = Some (t, x) → plain_use "ScanKey" toks →
  ∃ t', parse_param (expand (active_at_line 53) toks) = Some (t', x) ∧
        tyeq tenv t' t.
Proof.
  intros Htd Hp [Habs|(rest & -> & Hr)].
  - rewrite expand_ScanKey_absent by done. exists t. split; [done|constructor].
  - unfold parse_param in *. rewrite parse_base_ScanKey in Hp.
    destruct (shim_head tenv _ _ _ Htd Hr Hp) as (-> & t' & Hp' & Ht). by exists t'.
Qed.

Lemma shim_params tenv groups ps :
  ScanKey_is_pointer tenv →
  parse_params groups = Some ps → Forall (plain_use "ScanKey") groups →
  ∃ ps', parse_params (expand (active_at_line 53) <$> groups) = Some ps' ∧
         Forall2 (same_decl tenv) ps' ps.
Proof.
  intros Htd. revert ps. induction groups as [|g gs IH]; intros ps Hp Hpl.
  - injection Hp as <-. exists []. split; [done|constructor].
  - simpl in Hp. destruct (parse_param g) as [[t x]|] eqn:Hg; [|done].
    destruct (parse_params gs) as [ps0|] eqn:Hgs; [|done]. injection Hp as <-.
    apply Forall_cons in Hpl as [Hg1 Hgs1].
    destruct (shim_param tenv _ _ _ Htd Hg Hg1) as (t' & Hg' & Ht).
    destruct (IH _ eq_refl Hgs1) as (ps' & Hps' & Hall).
    exists ((t', x) :: ps'). rewrite fmap_cons. simpl. rewrite Hg', Hps'.
    split; [done|]. constructor; [by split|done].
Qed.

Lemma split_on_absent sep toks : sep ∉ toks → split_on sep toks = [toks].
Proof.
  induction toks as [|t toks IH]; [done|]. intros H.
  apply not_elem_of_cons in H as [Ht Hts].
  rewrite split_on_other, IH by done. done.
Qed.

Lemma shim_decl tenv toks ds :
  ScanKey_is_pointer tenv →
  parse_decl toks = Some ds → plain_decl "ScanKey" toks →
  ∃ ds', parse_decl (expand (active_at_line 53) toks) = Some ds' ∧
         Forall2 (same_decl tenv) ds' ds.
Proof.
  intros Htd Hp [Habs|(rest & -> & Hr & Hc)].
  - rewrite expand_ScanKey_absent by done. exists ds.
    split; [done|apply same_decls_refl].
  - unfold parse_decl in *. rewrite parse_base_ScanKey in Hp.
    rewrite split_on_absent in Hp by done. simpl in Hp.
    destruct (parse_declarator (TNamed "ScanKey") rest) as [[t x]|] eqn:Hd; [|done].
    injection Hp as <-.
    destruct (shim_head tenv _ _ _ Htd Hr Hd) as (-> & t' & Hp' & Ht).
    rewrite split_on_absent
      by (apply not_elem_of_cons; split; [done|exact Hc]).
    cbn [parse_declarators]. rewrite Hp'.
    exists [(t', x)]. split; [done|]. constructor; [by split|constructor].
Qed.

Lemma shim_fields tenv groups fs :
  ScanKey_is_pointer tenv →
  parse_fields groups = Some fs → Forall (plain_decl "ScanKey") groups →
  ∃ fs', parse_fields (expand (active_at_line 53) <$> groups) = Some fs' ∧
         Forall2 (same_decl tenv) fs' fs.
Proof.
  intros Htd. revert fs. induction groups as [|g gs IH]; intros fs Hp Hpl.
  - injection Hp as <-. exists []. split; [done|constructor].
  - simpl in Hp. destruct (parse_decl g) as [ds|] eqn:Hg; [|done].
    destruct (parse_fields gs) as [fs0|] eqn:Hgs; [|done]. injection Hp as <-.
    apply Forall_cons in Hpl as [Hg1 Hgs1].
    destruct (shim_decl tenv _ _ Htd Hg Hg1) as (ds' & Hg' & Hd).
    destruct (IH _ eq_refl Hgs1) as (fs' & Hfs' & Hall).
    exists (ds' ++ fs'). rewrite fmap_cons. simpl. rewrite Hg', Hfs'.
    split; [done|]. by apply Forall2_app.
Qed.

Lemma separator_tokens :
  separator "," ∧ separator ";" ∧ separator "(" ∧ separator ")" ∧ separator "}".
Proof. by repeat split. Qed.

Lemma struct_parts_expand toks tag groups :
  struct_parts toks = Some (tag, groups) → tag ≠ "ScanKey" →
  struct_parts (expand (active_at_line 53) toks)
    = Some (tag, expand (active_at_line 53) <$> groups).
Proof.
  destruct separator_tokens as (_ & Hsemi & _ & _ & Hbrace).
  intros Hs Htag. destruct toks as [|kw [|tag' [|open body]]]; try done.
  simpl in Hs. case_decide as Hkw; [|done]. case_decide as Hop; [|done].
  destruct (strip_last "}" body) as [inner|] eqn:Hin; [|done].
  destruct (strip_last ";" inner) as [fields|] eqn:Hf; [|done].
  destruct (is_ident tag') eqn:Hid; [|done]. injection Hs as -> <-. subst kw open.
  rewrite !expand_ScanKey_cons, !decide_False by done.
  change (struct_parts ("struct" :: tag :: "{" :: expand (active_at_line 53) body)
          = Some (tag, expand (active_at_line 53) <$> split_on ";" fields)).
  unfold struct_parts. rewrite !decide_True by done.
  rewrite (expand_strip _ _ _ Hbrace Hin), (expand_strip _ _ _ Hsemi Hf), Hid.
  by rewrite expand_split.
Qed.

Lemma shim_struct tenv toks tag fs :
  ScanKey_is_pointer tenv →
  parse_struct toks = Some (tag, fs) → plain_struct "ScanKey" toks →
  ∃ fs', parse_struct (expand (active_at_line 53) toks) = Some (tag, fs') ∧
         Forall2 (same_decl tenv) fs' fs.
Proof.
  intros Htd Hp Hpl. unfold parse_struct, plain_struct in *.
  destruct (struct_parts toks) as [[tag' groups]|] eqn:Hs; [|done].
  destruct Hpl as [Htag Hgroups].
  destruct (parse_fields groups) as [fs0|] eqn:Hfs; [|done]. injection Hp as -> ->.
  destruct (shim_fields tenv _ _ Htd Hfs Hgroups) as (fs' & Hfs' & Hall).
  rewrite (struct_parts_expand _ _ _ Hs Htag), Hfs'. by exists fs'.
Qed.

Lemma proto_parts_expand toks head groups :
  proto_parts toks = Some (head, groups) →
  proto_parts (expand (active_at_line 53) toks)
    = Some (expand (active_at_line 53) head, expand (active_at_line 53) <$> groups).
Proof.
  destruct separator_tokens as (Hcomma & _ & Hopen & Hclose & _).
  unfold proto_parts. intros Hp. rewrite (expand_break _ _ Hopen).
  destruct (break_at "(" toks) as [[head' rest]|]; [|done].
  cbn [fmap option_fmap option_map fst snd].
  destruct (strip_last ")" rest) as [inner|] eqn:Hin; [|done].
  rewrite (expand_strip _ _ _ Hclose Hin). injection Hp as -> <-.
  f_equal. f_equal. destruct (decide (inner = ["void"])) as [->|Hv].
  - by rewrite decide_True.
  - rewrite decide_False by (by rewrite expand_ScanKey_void).
    by apply expand_split.
Qed.

Lemma shim_proto tenv toks sig :
  ScanKey_is_pointer tenv →
  parse_proto toks = Some sig → plain_proto "ScanKey" toks →
  ∃ sig', parse_proto (expand (active_at_line 53) toks) = Some sig' ∧
          same_signature tenv sig' sig.
Proof.
  intros Htd Hp Hpl. unfold parse_proto, plain_proto in *.
  destruct (proto_parts toks) as [[head groups]|] eqn:Hs; [|done].
  destruct Hpl as [Hhead Hgroups].
  destruct (parse_param head) as [[r f]|] eqn:Hh; [|done].
  destruct (parse_params groups) as [ps|] eqn:Hps; [|done]. injection Hp as <-.
  destruct (shim_param tenv _ _ _ Htd Hh Hhead) as (r' & Hh' & Hr).
  destruct (shim_params tenv _ _ Htd Hps Hgroups) as (ps' & Hps' & Hall).
  rewrite (proto_parts_expand _ _ _ Hs), Hh', Hps'.
  exists (Sig f r' ps'). split; [done|]. by split.
Qed.

(** Where no typedef is declared in terms of another, equal types unfold to
    the same type. *)
Lemma tyeq_unfold tenv t u :
  (∀ n d, tenv !! n = Some d → unfold_typedefs tenv d = d) →
  tyeq tenv t u → unfold_typedefs tenv t = unfold_typedefs tenv u.
Proof.
  intros Hflat. induction 1 as [| | | | |n d Hn]; simpl; try congruence.
  rewrite Hn. simpl. symmetry. by apply (Hflat n).
Qed.

Lemma ScanKey_typedef_differs t u :
  unfold_typedefs Examples.ScanKey_typedef t
    ≠ unfold_typedefs Examples.ScanKey_typedef u →
  ¬ tyeq Examples.ScanKey_typedef t u.
Proof.
  intros Hne Heq. apply Hne, tyeq_unfold; [|done].
  intros n d Hn. unfold Examples.ScanKey_typedef in Hn.
  apply lookup_singleton_Some in Hn as [_ <-]. reflexivity.
Qed.

(** C10, as amended: the alias of the ScanKey rename is the type
    expression [struct ScanKeyData *], three tokens and not one placeholder
    identifier, and it reads as the type pointer to struct ScanKeyData.
    Where the engine's typedef makes ScanKey that same pointer type, every
    declaration of the shimmed include that uses ScanKey plainly (not at
    all, or as the unqualified type specifier of a single declarator) still
    parses under the rename, declares the same names, and gives each the
    same type as without the rename: a declaration of fields or variables, a
    struct with its field declarations, and a function prototype with its
    result and parameters. *)
Theorem ScanKey_alias_is_the_typedef_type (tenv : gmap string ctype) :
  ScanKey_is_pointer tenv →
  line_at 52 = Some (Define "ScanKey" ScanKey_alias) ∧
  active_at_line 53 !! "ScanKey" = Some ScanKey_alias ∧
  (∀ id, ScanKey_alias ≠ [id]) ∧
  parse_type ScanKey_alias = Some (TPtr (TStruct "ScanKeyData")) ∧
  (∀ toks ds,
     parse_decl toks = Some ds → plain_decl "ScanKey" toks →
     ∃ ds', parse_decl (expand (active_at_line 53) toks) = Some ds' ∧
            Forall2 (same_decl tenv) ds' ds) ∧
  (∀ toks tag fs,
     parse_struct toks = Some (tag, fs) → plain_struct "ScanKey" toks →
     ∃ fs', parse_struct (expand (active_at_line 53) toks) = Some (tag, fs') ∧
            Forall2 (same_decl tenv) fs' fs) ∧
  (∀ toks sig,
     parse_proto toks = Some sig → plain_proto "ScanKey" toks →
     ∃ sig', parse_proto (expand (active_at_line 53) toks) = Some sig' ∧
             same_signature tenv sig' sig).
Proof.
  intros Htd. split_and!; [reflexivity|reflexivity|done|reflexivity|..].
  - intros toks ds. by apply shim_decl.
  - intros toks tag fs. by apply shim_struct.
  - intros toks sig. by apply shim_proto.
Qed.

(** The struct IndexScanState of nodes/execnodes.h, with its two ScanKey
    fields, under the engine's typedef. *)
Lemma ScanKey_alias_is_the_typedef_type_witness :
  ScanKey_is_pointer Examples.ScanKey_typedef ∧
  ∃ fs', parse_struct
           (expand (active_at_line 53) (Emitter.d_text Examples.IndexScanState_decl))
         = Some ("IndexScanState", fs') ∧
         Forall2 (same_decl Examples.ScanKey_typedef) fs'
           [(TNamed "ScanKey", "iss_ScanKeys"); (TNamed "int", "iss_NumScanKeys");
            (TNamed "ScanKey", "iss_OrderByKeys");
            (TNamed "int", "iss_NumOrderByKeys")].
Proof.
  assert (Htd : ScanKey_is_pointer Examples.ScanKey_typedef) by reflexivity.
  split; [exact Htd|].
  apply (proj1 (proj2 (proj2 (proj2 (proj2 (proj2
           (ScanKey_alias_is_the_typedef_type Examples.ScanKey_typedef Htd))))))).
  - reflexivity.
  - split; [discriminate|].
    repeat (apply Forall_cons; split);
      [right; eexists; split; [reflexivity|split]|left
      |right; eexists; split; [reflexivity|split]|left|apply Forall_nil];
      apply (bool_decide_unpack _); vm_compute; exact I.
Defined.

(** C10, as stated, fails: not every occurrence of ScanKey keeps its type
    under the rename.  Under the engine's typedef, [ScanKey a , b] declares
    two pointers, but renamed it declares [b] as a struct; [const ScanKey k]
    declares a constant pointer, but renamed it declares a pointer to a
    constant struct; and a declaration that uses ScanKey as a struct tag or
    as the declared name does not parse any more. *)
Lemma ScanKey_occurrences_that_change :
  ScanKey_is_pointer Examples.ScanKey_typedef ∧
  (parse_decl ["ScanKey"; "a"; ","; "b"]
     = Some [(TNamed "ScanKey", "a"); (TNamed "ScanKey", "b")] ∧
   parse_decl (expand (active_at_line 53) ["ScanKey"; "a"; ","; "b"])
     = Some [(TPtr (TStruct "ScanKeyData"), "a"); (TStruct "ScanKeyData", "b")] ∧
   ¬ tyeq Examples.ScanKey_typedef (TStruct "ScanKeyData") (TNamed "ScanKey")) ∧
  (parse_decl ["const"; "ScanKey"; "k"] = Some [(TConst (TNamed "ScanKey"), "k")] ∧
   parse_decl (expand (active_at_line 53) ["const"; "ScanKey"; "k"])
     = Some [(TPtr (TConst (TStruct "ScanKeyData")), "k")] ∧
   ¬ tyeq Examples.ScanKey_typedef
       (TPtr (TConst (TStruct "ScanKeyData"))) (TConst (TNamed "ScanKey"))) ∧
  (parse_decl ["struct"; "ScanKey"; "*"; "k"] = Some [(TPtr (TStruct "ScanKey"), "k")] ∧
   parse_decl (expand (active_at_line 53) ["struct"; "ScanKey"; "*"; "k"]) = None) ∧
  (parse_decl ["int"; "ScanKey"] = Some [(TNamed "int", "ScanKey")] ∧
   parse_decl (expand (active_at_line 53) ["int"; "ScanKey"]) = None).
Proof.
  split_and!; try reflexivity.
  - apply ScanKey_typedef_differs. discriminate.
  - apply ScanKey_typedef_differs. discriminate.
Qed.

End CTypeFacts.

(** ** The binding emitter: regeneration and the renames *)

Module EmitterFacts.
Import Pg11 Cpp Shim ShimFacts Emitter CType CTypeFacts Examples.

Section facts.
Context {Host : Type}.
Variable backend : decl_kind → list string → option (string * Host).

Lemma unit_of_decls (p : string) (m : macros) (ds : list cdecl) :
  ((λ d, (p, expand_decl m d)) <$> ds).*2 = expand_decl m <$> ds.
Proof. rewrite <- list_fmap_compose. by apply list_fmap_ext. Qed.

Lemma generate_from_nil headers m out :
  generate_from backend headers m out [] = Ok out.
Proof. reflexivity. Qed.

Lemma generate_from_include headers m out p ds ls :
  headers !! p = Some ds →
  generate_from backend headers m out (Include p :: ls) =
  generate_from backend headers m (emit_all backend out (expand_decl m <$> ds)) ls.
Proof.
  intros Hp. unfold generate_from. simpl. rewrite Hp.
  destruct (preprocess_from headers m ls) as [tu|e]; [|done].
  unfold emit_all. by rewrite fmap_app, foldl_app, unit_of_decls.
Qed.

Lemma generate_from_missing headers m out p ls :
  headers !! p = None →
  generate_from backend headers m out (Include p :: ls) = Err (ParseError p).
Proof. intros Hp. unfold generate_from. simpl. by rewrite Hp. Qed.

Lemma generate_from_line headers m out l ls :
  is_include l = false →
  generate_from backend headers m out (l :: ls) =
  generate_from backend headers (step m l) out ls.
Proof. intros Hl. unfold generate_from. by destruct l. Qed.

(** *** Emission only adds symbols *)

Lemma emit_decl_keeps out d s :
  is_Some (out !! s) → is_Some (emit_decl backend out d !! s).
Proof.
  intros Hs. unfold emit_decl.
  destruct (backend (d_kind d) (d_text d)) as [[s' h']|]; [|done].
  rewrite lookup_insert_is_Some. destruct (decide (s' = s)); auto.
Qed.

Lemma emit_all_keeps out ds s :
  is_Some (out !! s) → is_Some (emit_all backend out ds !! s).
Proof.
  revert out. induction ds as [|d ds IH]; intros out Hs; [done|].
  apply IH. by apply emit_decl_keeps.
Qed.

Lemma generate_from_keeps headers m out ls outF s :
  generate_from backend headers m out ls = Ok outF →
  is_Some (out !! s) → is_Some (outF !! s).
Proof.
  revert m out. induction ls as [|l ls IH]; intros m out H Hs.
  - rewrite generate_from_nil in H. by injection H as <-.
  - destruct (is_include l) eqn:Hl.
    + destruct l as [| |p| | |]; try discriminate.
      destruct (headers !! p) as [ds|] eqn:Hp.
      * rewrite (generate_from_include _ _ _ _ _ _ Hp) in H.
        eapply IH; [done|]. by apply emit_all_keeps.
      * by rewrite (generate_from_missing _ _ _ _ _ Hp) in H.
    + rewrite (generate_from_line _ _ _ _ _ Hl) in H. by eapply IH.
Qed.


(** *** One declaration more in one header *)

Section regeneration.
Variable headers : gmap string (list cdecl).
Variables (p : string) (i : nat) (d : cdecl).
Variables (sym : string) (host : Host).

(** A symbol that no emitted declaration has can be added before or after
    the declarations are emitted. *)
Lemma emit_all_insert out ds :
  emit_all backend out ds !! sym = None →
  emit_all backend (<[sym := host]> out) ds
    = <[sym := host]> (emit_all backend out ds).
Proof.
  revert out. induction ds as [|e ds IH]; intros out Hn; [done|].
  simpl in *. rewrite <- (IH _ Hn). f_equal.
  unfold emit_decl.
  destruct (backend (d_kind e) (d_text e)) as [[s' h']|] eqn:Hb; [|done].
  destruct (decide (s' = sym)) as [->|Hne].
  - exfalso. apply eq_None_not_Some in Hn. apply Hn.
    apply emit_all_keeps. unfold emit_decl. rewrite Hb.
    rewrite lookup_insert_eq. by eexists.
  - by apply insert_insert_ne.
Qed.

Lemma emit_all_app out ds1 ds2 :
  emit_all backend out (ds1 ++ ds2)
    = emit_all backend (emit_all backend out ds1) ds2.
Proof. apply foldl_app. Qed.

Lemma emit_all_none_app out ds1 ds2 :
  emit_all backend out (ds1 ++ ds2) !! sym = None →
  emit_all backend out ds1 !! sym = None.
Proof.
  rewrite emit_all_app. intros Hn. apply eq_None_not_Some. intros Hs.
  apply eq_None_not_Some in Hn. apply Hn. by apply emit_all_keeps.
Qed.

Lemma includes_env_cons m l ls pm :
  pm ∈ includes_env (step m l) ls → pm ∈ includes_env m (l :: ls).
Proof. intros H. destruct l; simpl; try done. by apply list_elem_of_further. Qed.

(** What a header contributes once [d] has been added among its
    declarations, when the symbol of [d] is new. *)
Lemma emit_added_app m out ds1 ds2 :
  backend (d_kind d) (expand m (d_text d)) = Some (sym, host) →
  emit_all backend out (expand_decl m <$> (ds1 ++ ds2)) !! sym = None →
  emit_all backend out (expand_decl m <$> (ds1 ++ d :: ds2))
    = <[sym := host]> (emit_all backend out (expand_decl m <$> (ds1 ++ ds2))) ∧
  emit_all backend (<[sym := host]> out) (expand_decl m <$> (ds1 ++ d :: ds2))
    = <[sym := host]> (emit_all backend out (expand_decl m <$> (ds1 ++ ds2))).
Proof.
  intros Hb Hn. rewrite fmap_app in Hn.
  pose proof (emit_all_none_app _ _ _ Hn) as Hn1.
  rewrite emit_all_app in Hn.
  assert (Hd : ∀ o, emit_decl backend o (expand_decl m d) = <[sym := host]> o).
  { intros o. unfold emit_decl. simpl. by rewrite Hb. }
  rewrite !fmap_app, !fmap_cons, !emit_all_app. simpl. rewrite !Hd.
  rewrite (emit_all_insert _ _ Hn1), insert_insert_eq.
  by rewrite (emit_all_insert _ _ Hn).
Qed.

Lemma emit_added m out ds :
  backend (d_kind d) (expand m (d_text d)) = Some (sym, host) →
  emit_all backend out (expand_decl m <$> ds) !! sym = None →
  emit_all backend out (expand_decl m <$> (take i ds ++ d :: drop i ds))
    = <[sym := host]> (emit_all backend out (expand_decl m <$> ds)) ∧
  emit_all backend (<[sym := host]> out)
      (expand_decl m <$> (take i ds ++ d :: drop i ds))
    = <[sym := host]> (emit_all backend out (expand_decl m <$> ds)).
Proof.
  intros Hb Hn. pose proof (emit_added_app m out (take i ds) (drop i ds) Hb) as H.
  rewrite take_drop in H. by apply H.
Qed.

(** Regeneration from a module that already has the new symbol. *)
Lemma regenerate_insert m out ls outF :
  (∀ m', (p, m') ∈ includes_env m ls →
         backend (d_kind d) (expand m' (d_text d)) = Some (sym, host)) →
  generate_from backend headers m out ls = Ok outF →
  outF !! sym = None →
  generate_from backend (add_declaration p i d headers) m (<[sym := host]> out) ls
    = Ok (<[sym := host]> outF).
Proof.
  revert m out. induction ls as [|l ls IH]; intros m out Hb H Hn.
  - rewrite generate_from_nil in *. by injection H as <-.
  - destruct (is_include l) eqn:Hl.
    + destruct l as [| |q| | |]; try discriminate.
      destruct (headers !! q) as [ds|] eqn:Hq;
        [|by rewrite (generate_from_missing _ _ _ _ _ Hq) in H].
      rewrite (generate_from_include _ _ _ _ _ _ Hq) in H.
      assert (Hn1 : emit_all backend out (expand_decl m <$> ds) !! sym = None).
      { apply eq_None_not_Some. intros Hs. apply eq_None_not_Some in Hn.
        apply Hn. by eapply generate_from_keeps. }
      assert (Hb' : ∀ m', (p, m') ∈ includes_env m ls →
                backend (d_kind d) (expand m' (d_text d)) = Some (sym, host)).
      { intros m' Hm'. apply Hb. by apply list_elem_of_further. }
      destruct (decide (q = p)) as [->|Hne].
      * erewrite generate_from_include
          by (unfold add_declaration; rewrite lookup_alter_eq, Hq; done).
        assert (Hbm : backend (d_kind d) (expand m (d_text d)) = Some (sym, host)).
        { apply Hb. apply list_elem_of_here. }
        rewrite (proj2 (emit_added _ _ _ Hbm Hn1)). by apply IH.
      * erewrite generate_from_include
          by (unfold add_declaration; rewrite lookup_alter_ne, Hq; done).
        rewrite (emit_all_insert _ _ Hn1). by apply IH.
    + rewrite (generate_from_line _ _ _ _ _ Hl) in H.
      rewrite (generate_from_line _ _ _ _ _ Hl).
      apply IH; [|exact H|exact Hn].
      intros m' Hm'. by apply Hb, includes_env_cons.
Qed.

(** Regeneration from the same module. *)
Lemma regenerate_same m out ls outF :
  (∀ m', (p, m') ∈ includes_env m ls →
         backend (d_kind d) (expand m' (d_text d)) = Some (sym, host)) →
  generate_from backend headers m out ls = Ok outF →
  outF !! sym = None →
  generate_from backend (add_declaration p i d headers) m out ls
    = Ok (if decide (p ∈ (includes_env m ls).*1)
          then <[sym := host]> outF else outF).
Proof.
  revert m out. induction ls as [|l ls IH]; intros m out Hb H Hn.
  - rewrite generate_from_nil in *. injection H as <-.
    rewrite decide_False; [done|]. simpl. apply not_elem_of_nil.
  - destruct (is_include l) eqn:Hl.
    + destruct l as [| |q| | |]; try discriminate.
      destruct (headers !! q) as [ds|] eqn:Hq;
        [|by rewrite (generate_from_missing _ _ _ _ _ Hq) in H].
      rewrite (generate_from_include _ _ _ _ _ _ Hq) in H.
      assert (Hn1 : emit_all backend out (expand_decl m <$> ds) !! sym = None).
      { apply eq_None_not_Some. intros Hs. apply eq_None_not_Some in Hn.
        apply Hn. by eapply generate_from_keeps. }
      assert (Hb' : ∀ m', (p, m') ∈ includes_env m ls →
                backend (d_kind d) (expand m' (d_text d)) = Some (sym, host)).
      { intros m' Hm'. apply Hb. by apply list_elem_of_further. }
      destruct (decide (q = p)) as [->|Hne].
      * erewrite generate_from_include
          by (unfold add_declaration; rewrite lookup_alter_eq, Hq; done).
        assert (Hbm : backend (d_kind d) (expand m (d_text d)) = Some (sym, host)).
        { apply Hb. apply list_elem_of_here. }
        rewrite (proj1 (emit_added _ _ _ Hbm Hn1)).
        rewrite decide_True by (simpl; apply list_elem_of_here).
        by apply regenerate_insert.
      * erewrite generate_from_include
          by (unfold add_declaration; rewrite lookup_alter_ne, Hq; done).
        rewrite (IH _ _ Hb' H Hn). f_equal. simpl.
        destruct (decide (p ∈ (includes_env m ls).*1)) as [Hin|Hin].
        -- rewrite decide_True; [done|]. by apply list_elem_of_further.
        -- rewrite decide_False; [done|].
           rewrite elem_of_cons. intros [?|?]; [by subst|done].
    + rewrite (generate_from_line _ _ _ _ _ Hl) in H.
      rewrite (generate_from_line _ _ _ _ _ Hl).
      rewrite (IH (step m l) out);
        [|intros m' Hm'; by apply Hb, includes_env_cons|exact H|exact Hn].
      by destruct l.
Qed.

End regeneration.

(** C8: regeneration after one declaration is added upstream.  When the
    header set gains one new declaration [d] (a function declaration, or one
    of any other kind) in a header [p] that the umbrella header includes,
    and the backend emits [d] under a symbol the previous module does not
    have, then regeneration succeeds and the new module is the previous one
    with that symbol added: every previous symbol is still there with the
    same host declaration, and the new symbol is the only difference. *)
Theorem regeneration_adds_only_the_new_symbol
    (headers : gmap string (list cdecl)) (ls : list line)
    (p : string) (i : nat) (d : cdecl) (sym : string) (host : Host)
    (out : gmap string Host) :
  p ∈ includes ls →
  (∀ m, (p, m) ∈ includes_env ∅ ls →
        backend (d_kind d) (expand m (d_text d)) = Some (sym, host)) →
  generate backend headers ls = Ok out →
  out !! sym = None →
  ∃ out', generate backend (add_declaration p i d headers) ls = Ok out' ∧
    out' = <[sym := host]> out ∧
    out ⊆ out' ∧
    (∀ s h, out !! s = Some h → out' !! s = Some h) ∧
    (∀ s, s ≠ sym → out' !! s = out !! s) ∧
    out' !! sym = Some host ∧
    dom out' = {[ sym ]} ∪ dom out.
Proof.
  intros Hin Hb Hg Hn. exists (<[sym := host]> out).
  split_and!.
  - unfold generate in *.
    rewrite (regenerate_same headers p i d sym host _ _ _ _ Hb Hg Hn).
    by rewrite decide_True.
  - done.
  - by apply insert_subseteq.
  - intros s h Hs. rewrite lookup_insert_ne; [done|]. intros ->. congruence.
  - intros s Hs. by rewrite lookup_insert_ne.
  - apply lookup_insert_eq.
  - apply dom_insert_L.
Qed.

(** *** The translation unit of [pg11.h] *)


(** The tables the includes of [pg11.h] are read under. *)
Lemma pg11_include_tables p m :
  (p, m) ∈ includes_env ∅ pg11_h →
  (p = "nodes/execnodes.h" ∧ m = {[ "ScanKey" := ScanKey_alias ]}) ∨
  (p = "utils/geo_decls.h" ∧ m = {[ "double" := ["float8"] ]}) ∨
  (p ≠ "nodes/execnodes.h" ∧ p ≠ "utils/geo_decls.h" ∧ m = ∅).
Proof.
  assert (H : Forall (λ pm : string * macros,
     (pm.1 = "nodes/execnodes.h" ∧ pm.2 = {[ "ScanKey" := ScanKey_alias ]}) ∨
     (pm.1 = "utils/geo_decls.h" ∧ pm.2 = {[ "double" := ["float8"] ]}) ∨
     (pm.1 ≠ "nodes/execnodes.h" ∧ pm.1 ≠ "utils/geo_decls.h" ∧ pm.2 = ∅))
     (includes_env ∅ pg11_h)).
  { apply (bool_decide_unpack _). vm_compute. exact I. }
  rewrite Forall_forall in H. intros Hpm. apply (H _ Hpm).
Qed.


End facts.

(** *** A backend that mirrors the C declarations *)

Section mirrored.
Variable name_of : decl_kind → list string → string.








End mirrored.

(** *** Worked examples *)










(** After index_rescan and IndexScanState have been emitted, a function is
    added to utils/date.h: the two previous symbols stay as they were and
    the new one is added. *)
Lemma regeneration_adds_only_the_new_symbol_witness :
  ∃ out,
    generate (mirror example_name) ScanKey_headers pg11_h = Ok out ∧
    out !! "index_rescan" = Some index_rescan_decl ∧
    out !! "IndexScanState" = Some IndexScanState_renamed ∧
    out !! "date2timestamp_no_overflow" = None ∧
    ∃ out',
      generate (mirror example_name)
        (add_declaration "utils/date.h" 0 date2timestamp_decl ScanKey_headers) pg11_h
        = Ok out' ∧
      out' = <[ "date2timestamp_no_overflow" := date2timestamp_decl ]> out ∧
      out' !! "index_rescan" = Some index_rescan_decl ∧
      out' !! "IndexScanState" = Some IndexScanState_renamed ∧
      out' !! "date2timestamp_no_overflow" = Some date2timestamp_decl.
Proof.
  set (out := ({[ "index_rescan" := index_rescan_decl;
                  "IndexScanState" := IndexScanState_renamed ]} : gmap string cdecl)).
  assert (Hg : generate (mirror example_name) ScanKey_headers pg11_h = Ok out)
    by (vm_compute; exact eq_refl).
  assert (H1 : out !! "index_rescan" = Some index_rescan_decl)
    by (vm_compute; exact eq_refl).
  assert (H2 : out !! "IndexScanState" = Some IndexScanState_renamed)
    by (vm_compute; exact eq_refl).
  assert (H3 : out !! "date2timestamp_no_overflow" = None)
    by (vm_compute; exact eq_refl).
  exists out. do 4 (split; [assumption|]).
  destruct (regeneration_adds_only_the_new_symbol (mirror example_name)
              ScanKey_headers pg11_h "utils/date.h" 0 date2timestamp_decl
              "date2timestamp_no_overflow" date2timestamp_decl out)
    as (out' & Hg' & Heq & _ & Hkeep & _ & Hnew & _).
  - apply (bool_decide_unpack _). vm_compute. exact I.
  - intros m Hm.
    destruct (pg11_include_tables _ _ Hm) as [[? _]|[[? _]|(_ & _ & ->)]];
      [discriminate..|].
    rewrite expand_empty. reflexivity.
  - exact Hg.
  - exact H3.
  - exists out'. split; [exact Hg'|]. split; [exact Heq|].
    split; [exact (Hkeep _ _ H1)|]. split; [exact (Hkeep _ _ H2)|exact Hnew].
Defined.

End EmitterFacts.

(** ** Further properties of the directives of [pg11.h] *)

Module DirectiveFacts.
Import Pg11 Cpp Shim ShimFacts.

(** Under a single rename whose replacement list does not mention the
    renamed symbol, the symbol does not survive replacement, and replacing a
    second time changes nothing. *)
Lemma expand_singleton_eliminates s body toks :
  s ∉ body → s ∉ expand {[ s := body ]} toks.
Proof.
  intros Hb. induction toks as [|t toks IH]; [apply not_elem_of_nil|].
  rewrite expand_singleton_cons, elem_of_app. intros [Hs|Hs]; [|done].
  case_decide as Ht; [done|]. apply list_elem_of_singleton in Hs. congruence.
Qed.

Lemma expand_singleton_idem s body toks :
  s ∉ body →
  expand {[ s := body ]} (expand {[ s := body ]} toks)
    = expand {[ s := body ]} toks.
Proof.
  intros Hb. apply expand_no_defined_name. intros t Ht.
  apply lookup_singleton_ne. intros ->.
  by apply (expand_singleton_eliminates _ _ toks Hb).
Qed.

(** The table of every line of [pg11.h], and of every point past its end,
    is empty or one of the two renames. *)
Lemma pg11_tables n :
  active_at_line n = ∅ ∨
  active_at_line n = {[ "ScanKey" := ScanKey_alias ]} ∨
  active_at_line n = {[ "double" := ["float8"] ]}.
Proof.
  destruct (line_at n) as [l|] eqn:Hn.
  - pose proof (pg11_lines
      (λ x, bool_decide (x.2 = ∅ ∨ x.2 = {[ "ScanKey" := ScanKey_alias ]} ∨
                         x.2 = {[ "double" := ["float8"] ]})) n l eq_refl Hn) as H.
    by apply bool_decide_eq_true in H.
  - left. destruct n as [|k]; [reflexivity|]. simpl in Hn.
    apply lookup_ge_None in Hn. unfold active_at_line, macros_before.
    rewrite take_ge by lia. reflexivity.
Qed.

(** X2: the renames of [pg11.h] are complete and stable.  Whatever line
    the preprocessor is at, a symbol that is renamed there does not occur in
    the replaced text, no token of a replacement list is itself renamed, and
    replacing a second time changes nothing. *)
Theorem renames_complete_and_stable (n : nat) (toks : list string) :
  (∀ s, is_Some (active_at_line n !! s) → s ∉ expand (active_at_line n) toks) ∧
  (∀ s body t, active_at_line n !! s = Some body → t ∈ body →
     active_at_line n !! t = None) ∧
  expand (active_at_line n) (expand (active_at_line n) toks)
    = expand (active_at_line n) toks.
Proof.
  assert (HS : "ScanKey" ∉ ScanKey_alias)
    by (apply (bool_decide_unpack _); vm_compute; exact I).
  assert (HD : "double" ∉ ["float8"])
    by (apply (bool_decide_unpack _); vm_compute; exact I).
  destruct (pg11_tables n) as [Htb|[Htb|Htb]]; rewrite Htb; clear Htb; split_and!.
  - intros s [? Hs]. by rewrite lookup_empty in Hs.
  - intros s body t Hs. by rewrite lookup_empty in Hs.
  - by rewrite !expand_empty.
  - intros s [body Hs]. apply lookup_singleton_Some in Hs as [<- _].
    by apply expand_singleton_eliminates.
  - intros s body t Hs Ht. apply lookup_singleton_Some in Hs as [<- <-].
    apply lookup_singleton_ne. intros <-. by apply HS.
  - by apply expand_singleton_idem.
  - intros s [body Hs]. apply lookup_singleton_Some in Hs as [<- _].
    by apply expand_singleton_eliminates.
  - intros s body t Hs Ht. apply lookup_singleton_Some in Hs as [<- <-].
    apply lookup_singleton_ne. intros <-. by apply HD.
  - by apply expand_singleton_idem.
Qed.

(** A header whose list of includes has no repetition has each include on
    one line only. *)
Lemma include_lines_unique m ls i j p :
  NoDup (includes_env m ls).*1 →
  ls !! i = Some (Include p) → ls !! j = Some (Include p) → i = j.
Proof.
  revert m i j. induction ls as [|l ls IH]; intros m i j Hnd Hi Hj; [done|].
  assert (Htl : NoDup (includes_env (step m l) ls).*1).
  { destruct l; simpl in Hnd; try done. by apply NoDup_cons in Hnd as [_ ?]. }
  assert (Hhd : ∀ k, l = Include p → ls !! k = Some (Include p) → False).
  { intros k -> Hk. simpl in Hnd. apply NoDup_cons in Hnd as [Hnot _].
    apply Hnot, list_elem_of_fmap. exists (p, run m (take k ls)).
    split; [done|]. by apply includes_env_lookup. }
  destruct i as [|i], j as [|j]; simpl in Hi, Hj.
  - done.
  - injection Hi as ->. by destruct (Hhd j).
  - injection Hj as ->. by destruct (Hhd i).
  - f_equal. by eapply IH.
Qed.

(** X3: no header is included twice by [pg11.h]: two include lines that
    name the same header are the same line. *)
Theorem no_header_included_twice (i j : nat) (p : string) :
  line_at i = Some (Include p) → line_at j = Some (Include p) → i = j.
Proof.
  intros Hi Hj. destruct i as [|i], j as [|j]; try done. simpl in Hi, Hj.
  f_equal. apply (include_lines_unique ∅ pg11_h i j p); [|done..].
  apply (bool_decide_unpack _). vm_compute. exact I.
Qed.

Lemma no_header_included_twice_witness :
  line_at 53 = Some (Include "nodes/execnodes.h") ∧ 53 = 53.
Proof.
  split; [reflexivity|].
  apply (no_header_included_twice 53 53 "nodes/execnodes.h"); reflexivity.
Defined.

End DirectiveFacts.
